(** * Verification of [memmem] from [spritepal/tools/windows_compat.c]

  The file holds one function, a fallback [memmem] for platforms whose C
  library lacks it.  It is embedded here over a small byte-addressed
  memory: pointers are addresses in [Z], the heap is a finite map from
  addresses to bytes, and every access is recorded in a log, so that
  statements about which bytes a call touches can be made and proved. *)

From Stdlib Require Import ZArith Lia.
From Stdlib.Strings Require Import Byte.
From stdpp Require Import base option list gmap.

Local Open Scope Z_scope.

(** ** Memory, events and the computation monad *)

Module Mem.

(** A pointer is an address; [NULL] is address zero.  Addresses are
    unbounded integers: pointer arithmetic inside an object does not
    wrap. *)
Definition ptr : Type := Z.
Definition NULL : ptr := 0.

(** What a computation can do to memory. *)
Inductive event : Type :=
| Load (a : ptr)
| Store (a : ptr) (b : byte).

Record state : Type := mkState {
  heap : gmap Z byte;
  log : list event
}.

(** A run ends with a value, with an access outside mapped memory, or
    it is cut off because the iteration budget is used up. *)
Inductive result (A : Type) : Type :=
| Done (a : A) (s : state)
| Fault (a : ptr) (s : state)
| OutOfFuel.
Arguments Done {A} a s.
Arguments Fault {A} a s.
Arguments OutOfFuel {A}.

Definition M (A : Type) : Type := state -> result A.

Definition ret {A} (a : A) : M A := fun s => Done a s.

Definition bind {A B} (c : M A) (k : A -> M B) : M B :=
  fun s =>
    match c s with
    | Done a s' => k a s'
    | Fault a s' => Fault a s'
    | OutOfFuel => OutOfFuel
    end.

Definition record (e : event) (s : state) : state :=
  mkState (heap s) (log s ++ [e]).

(** Reading one byte through a [const char *]. *)
Definition load (a : ptr) : M byte :=
  fun s =>
    match heap s !! a with
    | Some b => Done b (record (Load a) s)
    | None => Fault a s
    end.

(** Writing one byte; part of the memory interface, never used by
    [memmem]. *)
Definition store (a : ptr) (b : byte) : M unit :=
  fun s =>
    match heap s !! a with
    | Some _ => Done tt (mkState (<[a := b]> (heap s)) (log s ++ [Store a b]))
    | None => Fault a s
    end.

Definition out_of_fuel {A} : M A := fun _ => OutOfFuel.

Definition is_load (e : event) : Prop :=
  match e with Load _ => True | Store _ _ => False end.

(** The bytes [l] lie in the heap from address [p] on. *)
Fixpoint holds (m : gmap Z byte) (p : ptr) (l : list byte) : Prop :=
  match l with
  | [] => True
  | b :: l' => m !! p = Some b /\ holds m (p + 1) l'
  end.

End Mem.

Import Mem.

Notation "x <- c ;; k" := (bind c (fun x => k))
(at level 100, c at next level, right associativity).

(** ** The C library's [memcmp] *)

(** [memcmp] of <string.h>: compares the first [n] bytes of the two
  objects as unsigned chars; the result is zero when they agree and has
  the sign of the difference of the first differing pair otherwise.  The
  model reads all [n] bytes of both objects, the largest footprint the
  C standard allows an implementation. *)
Fixpoint memcmp_bytes (k : nat) (s1 s2 : ptr) : M Z :=
match k with
| O => ret 0
| S k' =>
    a <- load s1 ;;
    b <- load s2 ;;
    r <- memcmp_bytes k' (s1 + 1) (s2 + 1) ;;
    ret (if Byte.eqb a b then r
         else Z.of_N (Byte.to_N a) - Z.of_N (Byte.to_N b))
end.

Definition memcmp (s1 s2 : ptr) (n : Z) : M Z :=
memcmp_bytes (Z.to_nat n) s1 s2.

(** ** [size_t] arithmetic and [memmem] *)

Section Memmem.

(** Width of [size_t] in bits; <stddef.h> fixes it per platform. *)
Variable size_bits : positive.

Definition SIZE_MOD : Z := 2 ^ Z.pos size_bits.

Definition is_size_t (x : Z) : Prop := 0 <= x < SIZE_MOD.

(** [a - b] and [i++] on [size_t], with wrap-around. *)
Definition size_sub (a b : Z) : Z := (a - b) mod SIZE_MOD.
Definition size_incr (i : Z) : Z := (i + 1) mod SIZE_MOD.

(** The [for] loop of [memmem], entered with the current [i]; [fuel]
    bounds the number of times the body runs. *)
Fixpoint memmem_loop (fuel : nat) (h : ptr) (haystack_len : Z)
    (n : ptr) (needle_len : Z) (i : Z) : M ptr :=
  if i <=? size_sub haystack_len needle_len then
    match fuel with
    | O => out_of_fuel
    | S fuel' =>
        c <- memcmp (h + i) n needle_len ;;
        if c =? 0 then ret (h + i)
        else memmem_loop fuel' h haystack_len n needle_len (size_incr i)
    end
  else ret NULL.

Definition memmem (fuel : nat) (haystack : ptr) (haystack_len : Z)
    (needle : ptr) (needle_len : Z) : M ptr :=
  let h := haystack in
  let n := needle in
  if needle_len =? 0 then ret haystack
  else if haystack_len <? needle_len then ret NULL
  else memmem_loop fuel h haystack_len n needle_len 0.

End Memmem.

(** ** Byte sequences and what a call is expected to touch *)

Global Instance byte_eq_decision : EqDecision byte := Byte.byte_eq_dec.

(** The needle [N] lies in the haystack [H] at offset [i]. *)
Definition occurs_at (H N : list byte) (i : nat) : Prop :=
  take (length N) (drop i H) = N.

Global Instance occurs_at_dec (H N : list byte) (i : nat) :
  Decision (occurs_at H N i) :=
  list_eq_dec (take (length N) (drop i H)) N.

(** The lowest offset among [i], [i+1], ..., [i+d-1] at which [N] lies in
    [H], if there is one. *)
Fixpoint first_occ (H N : list byte) (i : nat) (d : nat) : option nat :=
  match d with
  | O => None
  | S d' => if decide (occurs_at H N i) then Some i
            else first_occ H N (S i) d'
  end.

(** Value of [memcmp] on two byte sequences of equal length. *)
Fixpoint cmp_bytes (A B : list byte) : Z :=
  match A, B with
  | a :: A', b :: B' =>
      if Byte.eqb a b then cmp_bytes A' B'
      else Z.of_N (Byte.to_N a) - Z.of_N (Byte.to_N b)
  | _, _ => 0
  end.

(** Accesses of one [memcmp] over [k] bytes. *)
Fixpoint memcmp_log (k : nat) (s1 s2 : ptr) : list event :=
  match k with
  | O => []
  | S k' => Load s1 :: Load s2 :: memcmp_log k' (s1 + 1) (s2 + 1)
  end.

(** Accesses of [d] consecutive loop iterations starting at offset [i]. *)
Fixpoint scan_log (h n : ptr) (k : nat) (i : nat) (d : nat) : list event :=
  match d with
  | O => []
  | S d' => memcmp_log k (h + Z.of_nat i) n ++ scan_log h n k (S i) d'
  end.

(** Lay the bytes [l] out in the heap from address [p] on. *)
Fixpoint place (p : ptr) (l : list byte) (m : gmap Z byte) : gmap Z byte :=
  match l with
  | [] => m
  | b :: l' => <[p := b]> (place (p + 1) l' m)
  end.

(** The pointer [memmem] hands back for a scan outcome, and the number of
    offsets the scan went through. *)
Definition found_ptr (h : ptr) (o : option nat) : ptr :=
  match o with Some k => h + Z.of_nat k | None => NULL end.

Definition scanned (i d : nat) (o : option nat) : nat :=
  match o with Some k => (S k - i)%nat | None => d end.

(** Length of a byte sequence as passed in a [size_t] argument. *)
Definition len (l : list byte) : Z := Z.of_nat (length l).

(** The caller passes buffers that hold [H] and [N], with their exact
    lengths, and the lengths fit in [size_t]. *)
Definition valid_call (size_bits : positive) (s : state)
    (haystack : ptr) (H : list byte) (needle : ptr) (N : list byte) : Prop :=
  holds (heap s) haystack H /\ holds (heap s) needle N /\
  is_size_t size_bits (len H) /\ is_size_t size_bits (len N).

(** Number of candidate offsets, [haystack_len - needle_len + 1], and zero
    when the needle is too long for that to make sense. *)
Definition candidates (H N : list byte) : nat :=
  (length H + 1 - length N)%nat.

(** Pointer returned on [H] and [N], read off the byte sequences. *)
Definition memmem_value (haystack : ptr) (H N : list byte) : ptr :=
  if decide (length N = 0%nat) then haystack
  else if decide (length H < length N)%nat then NULL
  else found_ptr haystack (first_occ H N 0 (candidates H N)).

(** Accesses made on [H] and [N], in order. *)
Definition memmem_accesses (haystack needle : ptr) (H N : list byte) : list event :=
  if decide (length N = 0%nat) then []
  else if decide (length H < length N)%nat then []
  else scan_log haystack needle (length N) 0
         (scanned 0 (candidates H N) (first_occ H N 0 (candidates H N))).

(** A run that came back, normally or with a fault, having left the heap
    alone and having only read. *)
Definition framed {A} (s : state) (r : result A) : Prop :=
  match r with
  | Done _ s' | Fault _ s' =>
      heap s' = heap s /\
      exists evs : list event, log s' = log s ++ evs /\ Forall is_load evs
  | OutOfFuel => False
  end.

(** The address [a] lies in one of the two ranges the caller names: the
    [haystack_len] bytes from [haystack] on, or the [needle_len] bytes from
    [needle] on. *)
Definition claimed (haystack : ptr) (haystack_len : Z) (needle : ptr)
    (needle_len : Z) (a : ptr) : Prop :=
  haystack <= a < haystack + haystack_len \/
  needle <= a < needle + needle_len.

(** An access that is a load from an address in [P]. *)
Definition reads_in (P : ptr -> Prop) (e : event) : Prop :=
  match e with Load a => P a | Store _ _ => False end.

(** A run that came back having left the heap alone and having only read
    addresses in [P]; when it came back with a fault, the faulting address
    is in [P] too and is not mapped. *)
Definition confined {A} (P : ptr -> Prop) (s : state) (r : result A) : Prop :=
  match r with
  | Done _ s' =>
      heap s' = heap s /\
      exists evs : list event, log s' = log s ++ evs /\ Forall (reads_in P) evs
  | Fault a s' =>
      (heap s' = heap s /\
       exists evs : list event, log s' = log s ++ evs /\ Forall (reads_in P) evs)
      /\ P a /\ heap s !! a = None
  | OutOfFuel => False
  end.

(** ** Sample buffers *)

(** The bytes of "hello world" and of "world". *)
Definition hello_world : list byte :=
  [x68; x65; x6c; x6c; x6f; x20; x77; x6f; x72; x6c; x64].
Definition world : list byte := [x77; x6f; x72; x6c; x64].

(** The bytes of "aaaa", "aa", "abc" and "xyz". *)
Definition aaaa : list byte := [x61; x61; x61; x61].
Definition aa : list byte := [x61; x61].
Definition abc : list byte := [x61; x62; x63].
Definition xyz : list byte := [x78; x79; x7a].

(** A memory that holds [H] from [haystack] on and [N] from [needle] on,
    with nothing logged yet. *)
Definition laid_out (haystack : ptr) (H : list byte) (needle : ptr)
    (N : list byte) : state :=
  mkState (place haystack H (place needle N ∅)) [].

(** The memory of "aaaa" and "aa" with one more byte elsewhere, after an
    earlier store. *)
Definition cluttered : state :=
  mkState (<[5 := x2a]> (place 1000 aaaa (place 2000 aa ∅))) [Store 5 x2a].

(** Closed well-formedness and range goals, by evaluation. *)
Ltac by_evaluation := vm_compute; repeat split; intro; discriminate.

(** ** Facts about byte sequences in the heap *)

Lemma byte_to_N_inj (a b : byte) : Byte.to_N a = Byte.to_N b -> a = b.
Proof.
  intros E. pose proof (Byte.of_to_N a) as Ha.
  rewrite E, Byte.of_to_N in Ha. congruence.
Qed.

Lemma cmp_bytes_zero (A B : list byte) :
  length A = length B -> cmp_bytes A B = 0 <-> A = B.
Proof.
  revert B. induction A as [|a A IH]; intros [|b B] L; simpl in L; try discriminate.
  - simpl. tauto.
  - injection L as L. simpl. destruct (Byte.eqb a b) eqn:E.
    + apply Byte.byte_dec_bl in E. subst b. rewrite (IH B L).
      split; [intros ->; reflexivity | intros [= ->]; reflexivity].
    + apply Byte.eqb_false in E. split.
      * intros D. exfalso. apply E, byte_to_N_inj. lia.
      * intros [= -> _]. contradiction.
Qed.

Lemma holds_lookup (m : gmap Z byte) (p : ptr) (l : list byte) :
  holds m p l <->
  forall (k : nat) (b : byte), l !! k = Some b -> m !! (p + Z.of_nat k) = Some b.
Proof.
  revert p. induction l as [|c l IH]; intros p; simpl.
  - split; [intros _ k b E; discriminate | trivial].
  - rewrite IH. split.
    + intros [Hp Hl] [|k] b E; simpl in E.
      * injection E as <-. now rewrite Z.add_0_r.
      * replace (p + Z.of_nat (S k)) with (p + 1 + Z.of_nat k) by lia. auto.
    + intros Hl. split.
      * specialize (Hl O c eq_refl). now rewrite Z.add_0_r in Hl.
      * intros k b E. specialize (Hl (S k) b E).
        now replace (p + Z.of_nat (S k)) with (p + 1 + Z.of_nat k) in Hl by lia.
Qed.

Lemma holds_window (m : gmap Z byte) (p : ptr) (l : list byte) (i k : nat) :
  holds m p l -> holds m (p + Z.of_nat i) (take k (drop i l)).
Proof.
  rewrite !holds_lookup. intros Hl j b E.
  apply lookup_take_Some in E as [E _]. rewrite lookup_drop in E.
  specialize (Hl _ _ E). now replace (p + Z.of_nat i + Z.of_nat j)
    with (p + Z.of_nat (i + j)) by lia.
Qed.

Lemma holds_place_here (p : ptr) (l : list byte) (m : gmap Z byte) :
  holds (place p l m) p l.
Proof.
  assert (G : forall l p q b m, q < p -> place p l (<[q := b]> m) = <[q := b]> (place p l m)).
  { clear. induction l as [|c l IH]; intros p q b m L; simpl; [reflexivity|].
    rewrite IH by lia. apply insert_insert_ne. lia. }
  assert (F : forall l p q b m, q < p -> holds m p l -> holds (<[q := b]> m) p l).
  { clear. induction l as [|c l IH]; intros p q b m L; simpl; [trivial|].
    intros [E Hl]. split; [rewrite lookup_insert_ne by lia; exact E|].
    apply IH; [lia | exact Hl]. }
  revert p. induction l as [|c l IH]; intros p; simpl; [trivial|].
  split; [apply lookup_insert_eq|]. apply F; [lia | apply IH].
Qed.

Lemma memcmp_bytes_run (k : nat) (s1 s2 : ptr) (A B : list byte) (s : state) :
  holds (heap s) s1 A -> holds (heap s) s2 B ->
  length A = k -> length B = k ->
  memcmp_bytes k s1 s2 s
  = Done (cmp_bytes A B) (mkState (heap s) (log s ++ memcmp_log k s1 s2)).
Proof.
  revert s1 s2 A B s.
  induction k as [|k IH]; intros s1 s2 [|a A] [|b B] s HA HB LA LB;
    simpl in LA, LB; try discriminate.
  - simpl. unfold ret. rewrite app_nil_r. now destruct s.
  - destruct HA as [Ea HA], HB as [Eb HB].
    injection LA as LA. injection LB as LB.
    cbn [memcmp_bytes]. unfold bind at 1, load at 1. rewrite Ea.
    unfold bind at 1, load at 1. cbn [heap record]. rewrite Eb.
    unfold bind at 1.
    rewrite (IH (s1 + 1) (s2 + 1) A B) by (cbn [heap record]; assumption).
    unfold ret. cbn [heap log record memcmp_log cmp_bytes].
    rewrite <- !app_assoc. reflexivity.
Qed.

(** ** Facts about the leftmost occurrence *)

Lemma occurs_at_fits (H N : list byte) (i : nat) :
  (0 < length N)%nat -> occurs_at H N i -> (i + length N <= length H)%nat.
Proof.
  unfold occurs_at. intros P E. apply (f_equal length) in E.
  rewrite length_take, length_drop in E. lia.
Qed.

Lemma first_occ_Some (H N : list byte) (d i k : nat) :
  first_occ H N i d = Some k <->
  (i <= k < i + d)%nat /\ occurs_at H N k /\
  forall j : nat, (i <= j < k)%nat -> ~ occurs_at H N j.
Proof.
  revert i. induction d as [|d IH]; intros i; simpl.
  - split; [discriminate | lia].
  - destruct (decide (occurs_at H N i)) as [Y|Y].
    + split.
      * intros [= <-]. repeat split; [lia | lia | exact Y | intros j Rj; lia].
      * intros (R & _ & Low). f_equal.
        destruct (decide (i = k)) as [E|E]; [exact E|].
        exfalso. apply (Low i); [lia | exact Y].
    + rewrite IH. split.
      * intros (R & Hit & Low). repeat split; [lia | lia | exact Hit |].
        intros j Rj. destruct (decide (j = i)) as [->|E]; [exact Y|].
        apply Low. lia.
      * intros (R & Hit & Low).
        assert (i <> k) by (intros ->; contradiction).
        repeat split; [lia | lia | exact Hit |].
        intros j Rj. apply Low. lia.
Qed.

Lemma first_occ_None (H N : list byte) (d i : nat) :
  first_occ H N i d = None <->
  forall j : nat, (i <= j < i + d)%nat -> ~ occurs_at H N j.
Proof.
  revert i. induction d as [|d IH]; intros i; simpl.
  - split; [intros _ j R; lia | trivial].
  - destruct (decide (occurs_at H N i)) as [Y|Y].
    + split; [discriminate|]. intros Low. exfalso. apply (Low i); [lia | exact Y].
    + rewrite IH. split.
      * intros Low j Rj. destruct (decide (j = i)) as [->|E]; [exact Y|].
        apply Low. lia.
      * intros Low j Rj. apply Low. lia.
Qed.

Lemma memcmp_log_loads (k : nat) (s1 s2 : ptr) (e : event) :
  e ∈ memcmp_log k s1 s2 ->
  exists j : Z, 0 <= j < Z.of_nat k /\ (e = Load (s1 + j) \/ e = Load (s2 + j)).
Proof.
  revert s1 s2. induction k as [|k IH]; intros s1 s2; simpl.
  - intros E. inversion E.
  - rewrite !elem_of_cons. intros [-> | [-> | E]].
    + exists 0. rewrite !Z.add_0_r. split; [lia | now left].
    + exists 0. rewrite !Z.add_0_r. split; [lia | now right].
    + destruct (IH _ _ E) as (j & R & D). exists (j + 1). split; [lia|].
      replace (s1 + (j + 1)) with (s1 + 1 + j) by lia.
      replace (s2 + (j + 1)) with (s2 + 1 + j) by lia. exact D.
Qed.

Lemma scan_log_loads (h n : ptr) (k i d : nat) (e : event) :
  e ∈ scan_log h n k i d ->
  exists (p : nat) (j : Z), (i <= p < i + d)%nat /\ 0 <= j < Z.of_nat k /\
    (e = Load (h + Z.of_nat p + j) \/ e = Load (n + j)).
Proof.
  revert i. induction d as [|d IH]; intros i; simpl.
  - intros E. inversion E.
  - rewrite elem_of_app. intros [E | E].
    + destruct (memcmp_log_loads _ _ _ _ E) as (j & R & D).
      exists i, j. repeat split; try lia. exact D.
    + destruct (IH _ E) as (p & j & Rp & Rj & D).
      exists p, j. repeat split; try lia. exact D.
Qed.

(** ** Running the loop *)

Section Runs.

Variable size_bits : positive.

Lemma size_sub_exact (a b : Z) :
  is_size_t size_bits a -> 0 <= b <= a -> size_sub size_bits a b = a - b.
Proof.
  unfold is_size_t, size_sub. intros Ra Rb. apply Z.mod_small. lia.
Qed.

Lemma size_incr_exact (i bound : Z) :
  is_size_t size_bits bound -> 0 <= i < bound -> size_incr size_bits i = i + 1.
Proof.
  unfold is_size_t, size_incr. intros Rb Ri. apply Z.mod_small. lia.
Qed.

Lemma memmem_loop_eq (fuel : nat) (h : ptr) (hl : Z) (n : ptr) (nl i : Z) :
  memmem_loop size_bits fuel h hl n nl i =
  if i <=? size_sub size_bits hl nl then
    match fuel with
    | O => out_of_fuel
    | S fuel' =>
        c <- memcmp (h + i) n nl ;;
        if c =? 0 then ret (h + i)
        else memmem_loop size_bits fuel' h hl n nl (size_incr size_bits i)
    end
  else ret NULL.
Proof. destruct fuel; reflexivity. Qed.

Lemma scanned_miss (H N : list byte) (i d : nat) :
  ~ occurs_at H N i ->
  scanned i (S d) (first_occ H N (S i) d)
  = S (scanned (S i) d (first_occ H N (S i) d)).
Proof.
  intros Miss. destruct (first_occ H N (S i) d) as [k|] eqn:E; simpl; [|reflexivity].
  apply first_occ_Some in E as (R & _). lia.
Qed.

Lemma memmem_loop_run (hp np : ptr) (H N : list byte) (d i fuel : nat) (s : state) :
  holds (heap s) hp H -> holds (heap s) np N ->
  is_size_t size_bits (Z.of_nat (length H)) ->
  (0 < length N <= length H)%nat ->
  (i + d + length N = length H + 1)%nat ->
  (d <= fuel)%nat ->
  memmem_loop size_bits fuel hp (Z.of_nat (length H)) np
    (Z.of_nat (length N)) (Z.of_nat i) s
  = Done (found_ptr hp (first_occ H N i d))
      (mkState (heap s)
         (log s ++ scan_log hp np (length N) i
                     (scanned i d (first_occ H N i d)))).
Proof.
  intros HH HN RH PN. revert i fuel s HH HN.
  induction d as [|d IH]; intros i fuel s HH HN Fit Fuel; rewrite memmem_loop_eq.
  - rewrite size_sub_exact by (trivial; lia).
    destruct (Z.leb_spec (Z.of_nat i) (Z.of_nat (length H) - Z.of_nat (length N))); [lia|].
    simpl. unfold ret. rewrite app_nil_r. now destruct s.
  - rewrite size_sub_exact by (trivial; lia).
    destruct (Z.leb_spec (Z.of_nat i) (Z.of_nat (length H) - Z.of_nat (length N))); [|lia].
    destruct fuel as [|fuel]; [lia|].
    unfold bind, memcmp. rewrite Nat2Z.id.
    rewrite (memcmp_bytes_run _ _ _ (take (length N) (drop i H)) N);
      [ | now apply holds_window | exact HN
        | rewrite length_take, length_drop; lia | reflexivity ].
    cbn [first_occ].
    destruct (decide (occurs_at H N i)) as [Y|Y].
    + unfold occurs_at in Y. rewrite Y.
      rewrite (proj2 (cmp_bytes_zero N N eq_refl) eq_refl).
      cbn [Z.eqb found_ptr scanned]. unfold ret.
      replace (S i - i)%nat with 1%nat by lia.
      cbn [scan_log]. now rewrite app_nil_r.
    + destruct (Z.eqb_spec (cmp_bytes (take (length N) (drop i H)) N) 0) as [E|E].
      { exfalso. apply Y. apply cmp_bytes_zero in E; [exact E|].
        rewrite length_take, length_drop. lia. }
      rewrite (size_incr_exact _ (Z.of_nat (length H))) by (trivial; lia).
      replace (Z.of_nat i + 1) with (Z.of_nat (S i)) by lia.
      rewrite IH by (cbn [heap]; trivial; lia).
      rewrite scanned_miss by exact Y.
      cbn [heap log scan_log]. now rewrite <- app_assoc.
Qed.

End Runs.

(** ** The outcome of [memmem] on well-formed calls *)

Section Outcome.

Variable size_bits : positive.

Lemma memmem_total (fuel : nat) (haystack needle : ptr) (H N : list byte)
    (s : state) :
  valid_call size_bits s haystack H needle N ->
  (candidates H N <= fuel)%nat ->
  memmem size_bits fuel haystack (len H) needle (len N) s
  = Done (memmem_value haystack H N)
      (mkState (heap s) (log s ++ memmem_accesses haystack needle H N)).
Proof.
  intros (HH & HN & RH & RN) Fuel.
  unfold memmem, memmem_value, memmem_accesses, len in *.
  destruct (decide (length N = 0%nat)) as [E|E].
  - rewrite E. simpl. unfold ret. rewrite app_nil_r. now destruct s.
  - destruct (Z.eqb_spec (Z.of_nat (length N)) 0) as [E0|_]; [lia|].
    destruct (decide (length H < length N)%nat) as [L|L].
    + destruct (Z.ltb_spec (Z.of_nat (length H)) (Z.of_nat (length N))); [|lia].
      unfold ret. rewrite app_nil_r. now destruct s.
    + destruct (Z.ltb_spec (Z.of_nat (length H)) (Z.of_nat (length N))); [lia|].
      apply (memmem_loop_run size_bits haystack needle H N (candidates H N) 0);
        trivial; unfold candidates in *; lia.
Qed.

Lemma framed_refl {A} (a : A) (s : state) : framed s (Done a s).
Proof. split; [reflexivity|]. exists []. now rewrite app_nil_r. Qed.

Lemma framed_bind {A B} (c : M A) (k : A -> M B) (s : state) :
  framed s (c s) ->
  (forall a s', c s = Done a s' -> framed s' (k a s')) ->
  framed s (bind c k s).
Proof.
  unfold bind. intros Fc Fk. destruct (c s) as [a s'| a s'|] eqn:E; trivial.
  specialize (Fk a s' eq_refl). destruct Fc as (Hh & evs & Hl & Hevs).
  destruct (k a s') as [b s''| b s''|]; trivial;
    destruct Fk as (Hh' & evs' & Hl' & Hevs');
    (split; [congruence|]); exists (evs ++ evs');
    (split; [rewrite Hl', Hl; now rewrite app_assoc | now apply Forall_app]).
Qed.

Lemma load_framed (a : ptr) (s : state) : framed s (load a s).
Proof.
  unfold load. destruct (heap s !! a).
  - split; [reflexivity|]. exists [Load a]. split; [reflexivity|].
    repeat constructor.
  - split; [reflexivity|]. exists []. now rewrite app_nil_r.
Qed.

Lemma memcmp_bytes_framed (k : nat) (s1 s2 : ptr) (s : state) :
  framed s (memcmp_bytes k s1 s2 s).
Proof.
  revert s1 s2 s. induction k as [|k IH]; intros s1 s2 s; cbn [memcmp_bytes].
  - apply framed_refl.
  - apply framed_bind; [apply load_framed|]. intros a s' _.
    apply framed_bind; [apply load_framed|]. intros b s'' _.
    apply framed_bind; [apply IH|]. intros r s''' _. apply framed_refl.
Qed.

Lemma memmem_loop_framed (h : ptr) (hl : Z) (n : ptr) (nl : Z) (d : nat)
    (i : Z) (fuel : nat) (s : state) :
  is_size_t size_bits hl -> 0 < nl <= hl -> 0 <= i ->
  i + Z.of_nat d = hl - nl + 1 -> (d <= fuel)%nat ->
  framed s (memmem_loop size_bits fuel h hl n nl i s).
Proof.
  intros Rh Rn. revert i fuel s.
  induction d as [|d IH]; intros i fuel s Ri Fit Fuel; rewrite memmem_loop_eq;
    rewrite size_sub_exact by (trivial; lia).
  - destruct (Z.leb_spec i (hl - nl)); [lia|]. apply framed_refl.
  - destruct (Z.leb_spec i (hl - nl)); [|lia].
    destruct fuel as [|fuel]; [lia|].
    apply framed_bind; [apply memcmp_bytes_framed|]. intros c s' _.
    destruct (c =? 0); [apply framed_refl|].
    rewrite (size_incr_exact _ _ hl) by (trivial; lia).
    apply IH; lia.
Qed.

Lemma memmem_framed (fuel : nat) (haystack : ptr) (haystack_len : Z)
    (needle : ptr) (needle_len : Z) (s : state) :
  is_size_t size_bits haystack_len -> is_size_t size_bits needle_len ->
  (Z.to_nat (haystack_len - needle_len + 1) <= fuel)%nat ->
  framed s (memmem size_bits fuel haystack haystack_len needle needle_len s).
Proof.
  intros Rh Rn Fuel. unfold memmem.
  destruct (Z.eqb_spec needle_len 0); [apply framed_refl|].
  destruct (Z.ltb_spec haystack_len needle_len); [apply framed_refl|].
  unfold is_size_t in *.
  apply (memmem_loop_framed _ _ _ _ (Z.to_nat (haystack_len - needle_len + 1)));
    trivial; lia.
Qed.

End Outcome.

(** ** The properties of [memmem] *)

Lemma scanned_bound (H N : list byte) (d : nat) :
  (scanned 0 d (first_occ H N 0 d) <= d)%nat.
Proof.
  destruct (first_occ H N 0 d) as [k|] eqn:E; simpl; [|lia].
  apply first_occ_Some in E as (R & _). lia.
Qed.

Lemma first_occ_leftmost (H N : list byte) (k : nat) :
  (0 < length N)%nat ->
  occurs_at H N k ->
  (forall j : nat, (j < k)%nat -> ~ occurs_at H N j) ->
  first_occ H N 0 (candidates H N) = Some k.
Proof.
  intros P Hit Low. apply first_occ_Some. pose proof (occurs_at_fits H N k P Hit).
  unfold candidates. repeat split; [lia | lia | exact Hit |].
  intros j Rj. apply Low. lia.
Qed.

(** C1. On a non-empty needle that is no longer than the haystack, the
    call compares the needle with the haystack at offsets 0, 1, 2, ... in
    this order, up to [haystack_len - needle_len] at most, and returns the
    pointer to the lowest offset [k] at which the needle occurs: the
    accesses are exactly those of the comparisons at offsets 0 to [k].
    When the needle occurs nowhere, all offsets 0 to
    [haystack_len - needle_len] have been compared. *)
Theorem memmem_returns_leftmost (size_bits : positive) (fuel : nat)
    (haystack needle : ptr) (H N : list byte) (s : state) :
  valid_call size_bits s haystack H needle N ->
  (0 < length N <= length H)%nat ->
  (candidates H N <= fuel)%nat ->
  (forall k : nat,
     occurs_at H N k ->
     (forall j : nat, (j < k)%nat -> ~ occurs_at H N j) ->
     (k <= length H - length N)%nat /\
     memmem size_bits fuel haystack (len H) needle (len N) s
     = Done (haystack + Z.of_nat k)
         (mkState (heap s)
            (log s ++ scan_log haystack needle (length N) 0 (S k))))
  /\
  ((forall j : nat, ~ occurs_at H N j) ->
   memmem size_bits fuel haystack (len H) needle (len N) s
   = Done NULL
       (mkState (heap s)
          (log s ++ scan_log haystack needle (length N) 0 (candidates H N)))).
Proof.
  intros V R Fuel. pose proof (memmem_total size_bits fuel _ _ _ _ _ V Fuel) as T.
  unfold memmem_value, memmem_accesses in T.
  destruct (decide (length N = 0%nat)); [lia|].
  destruct (decide (length H < length N)%nat); [lia|].
  split.
  - intros k Hit Low.
    pose proof (occurs_at_fits H N k (proj1 R) Hit).
    rewrite (first_occ_leftmost H N k (proj1 R) Hit Low) in T.
    cbn [found_ptr scanned] in T. rewrite Nat.sub_0_r in T.
    split; [lia | exact T].
  - intros Absent.
    assert (E : first_occ H N 0 (candidates H N) = None)
      by (apply first_occ_None; intros j _; apply Absent).
    rewrite E in T. exact T.
Qed.

(** C2. With [needle_len == 0] the call returns the haystack pointer
    itself, whatever the haystack and its length, and reads no byte: the
    state, access log included, is the one it started from.  The result
    is a match at offset 0, where the empty needle occurs in every
    haystack, the empty one included. *)
Theorem memmem_empty_needle (size_bits : positive) (fuel : nat)
    (haystack : ptr) (haystack_len : Z) (needle : ptr) (s : state)
    (H : list byte) :
  memmem size_bits fuel haystack haystack_len needle 0 s = Done haystack s /\
  haystack = haystack + Z.of_nat 0 /\
  occurs_at H [] 0.
Proof.
  split; [reflexivity|]. split; [|reflexivity].
  rewrite Nat2Z.inj_0. symmetry. apply Z.add_0_r.
Qed.

Lemma needle_too_long_returns_null (size_bits : positive) (fuel : nat)
    (haystack : ptr) (haystack_len : Z) (needle : ptr) (needle_len : Z)
    (s : state) :
  0 <= haystack_len < needle_len ->
  memmem size_bits fuel haystack haystack_len needle needle_len s
  = Done NULL s.
Proof.
  intros R. unfold memmem.
  destruct (Z.eqb_spec needle_len 0); [lia|].
  destruct (Z.ltb_spec haystack_len needle_len); [reflexivity | lia].
Qed.

(** C3. With [needle_len > haystack_len] the call returns [NULL] and
    reads no byte: the loop is not entered and the state, access log
    included, is the one it started from. *)
Theorem memmem_needle_too_long (size_bits : positive) (fuel : nat)
    (haystack : ptr) (haystack_len : Z) (needle : ptr) (needle_len : Z)
    (s : state) :
  0 <= haystack_len < needle_len ->
  memmem size_bits fuel haystack haystack_len needle needle_len s
  = Done NULL s.
Proof. apply needle_too_long_returns_null. Qed.

(** C4, as amended. The call returns [NULL] exactly when either the
    needle is non-empty and occurs at no offset [i] with
    [i + needle_len <= haystack_len], or the needle is empty and the
    haystack pointer is itself [NULL].  No byte of the haystack lies at
    the address [NULL], which C gives to no object; the null haystack of
    length 0 is a haystack like any other. *)
Theorem memmem_null_iff_absent (size_bits : positive) (fuel : nat)
    (haystack needle : ptr) (H N : list byte) (s : state) :
  valid_call size_bits s haystack H needle N ->
  (forall k : nat, (k < length H)%nat -> haystack + Z.of_nat k <> NULL) ->
  (candidates H N <= fuel)%nat ->
  exists (r : ptr) (s' : state),
    memmem size_bits fuel haystack (len H) needle (len N) s = Done r s' /\
    (r = NULL <->
     (N <> [] /\
      forall i : nat, (i + length N <= length H)%nat -> ~ occurs_at H N i)
     \/ (N = [] /\ haystack = NULL)).
Proof.
  intros V Obj Fuel. eexists _, _. split; [apply memmem_total; eassumption|].
  unfold memmem_value.
  destruct (decide (length N = 0%nat)) as [E|E].
  - destruct N; [|discriminate]. split.
    + intros Null. right. split; [reflexivity | exact Null].
    + intros [[NE _] | [_ Null]]; [contradiction | exact Null].
  - assert (NE : N <> []) by (intros ->; contradiction).
    destruct (decide (length H < length N)%nat) as [L|L].
    + split; [|reflexivity]. intros _. left. split; [exact NE|]. intros i Ri. lia.
    + destruct (first_occ H N 0 (candidates H N)) as [k|] eqn:F; cbn [found_ptr].
      * apply first_occ_Some in F as (Rk & Hit & _).
        assert (Fit : (k + length N <= length H)%nat)
          by (apply occurs_at_fits; [lia | exact Hit]).
        split.
        -- intros Null. exfalso. apply (Obj k); [lia | exact Null].
        -- intros [[_ Absent] | [Emp _]]; [|contradiction].
           exfalso. apply (Absent k); [exact Fit | exact Hit].
      * split; [|reflexivity]. intros _. left. split; [exact NE|].
        intros i Ri. apply (proj1 (first_occ_None H N _ 0) F).
        unfold candidates. lia.
Qed.

(** C5. A pointer other than [NULL] that the call returns is
    [haystack + i] for an offset [i] with [i + needle_len <= haystack_len],
    the needle occurs in the haystack at [i], and the [needle_len] bytes in
    memory from the returned pointer on are the needle's. *)
Theorem memmem_match_sound (size_bits : positive) (fuel : nat)
    (haystack needle : ptr) (H N : list byte) (s : state) :
  valid_call size_bits s haystack H needle N ->
  (candidates H N <= fuel)%nat ->
  exists (r : ptr) (s' : state),
    memmem size_bits fuel haystack (len H) needle (len N) s = Done r s' /\
    (r <> NULL ->
     exists i : nat,
       r = haystack + Z.of_nat i /\
       (i + length N <= length H)%nat /\
       occurs_at H N i /\
       holds (heap s') r N).
Proof.
  intros V Fuel. eexists _, _. split; [apply memmem_total; eassumption|].
  destruct V as (HH & HN & _). unfold memmem_value. cbn [heap].
  destruct (decide (length N = 0%nat)) as [E|E].
  - intros _. exists 0%nat. destruct N; [|discriminate].
    repeat split; simpl; [lia | lia].
  - destruct (decide (length H < length N)%nat) as [L|L]; [congruence|].
    destruct (first_occ H N 0 (candidates H N)) as [k|] eqn:F; cbn [found_ptr];
      [|congruence].
    intros _. apply first_occ_Some in F as (Rk & Hit & _). exists k.
    repeat split; [apply occurs_at_fits; [lia | exact Hit] | exact Hit |].
    pose proof (holds_window _ _ _ k (length N) HH) as W.
    unfold occurs_at in Hit. now rewrite Hit in W.
Qed.

(** C6. The returned pointer and the accesses made are a function of the
    arguments and of the bytes of the two buffers alone: two calls with
    the same pointers and lengths, on memories that agree on the haystack
    and the needle (and may differ anywhere else, as may the earlier log
    and the iteration budget), return the same pointer after the same
    accesses. *)
Theorem memmem_deterministic (size_bits : positive) (fuel1 fuel2 : nat)
    (haystack needle : ptr) (H N : list byte) (s1 s2 : state) :
  valid_call size_bits s1 haystack H needle N ->
  valid_call size_bits s2 haystack H needle N ->
  (candidates H N <= fuel1)%nat ->
  (candidates H N <= fuel2)%nat ->
  exists (r : ptr) (evs : list event),
    memmem size_bits fuel1 haystack (len H) needle (len N) s1
    = Done r (mkState (heap s1) (log s1 ++ evs)) /\
    memmem size_bits fuel2 haystack (len H) needle (len N) s2
    = Done r (mkState (heap s2) (log s2 ++ evs)).
Proof.
  intros V1 V2 F1 F2.
  exists (memmem_value haystack H N), (memmem_accesses haystack needle H N).
  split; apply memmem_total; assumption.
Qed.

(** C7. The call returns with the heap it was given: every address maps
    to the byte it mapped to before, so the haystack and the needle hold
    the same bytes after the call, and everything the call did to memory
    is a sequence of loads, without a single store. *)
Theorem memmem_no_mutation (size_bits : positive) (fuel : nat)
    (haystack needle : ptr) (H N : list byte) (s : state) :
  valid_call size_bits s haystack H needle N ->
  (candidates H N <= fuel)%nat ->
  exists (r : ptr) (s' : state),
    memmem size_bits fuel haystack (len H) needle (len N) s = Done r s' /\
    heap s' = heap s /\
    holds (heap s') haystack H /\ holds (heap s') needle N /\
    exists evs : list event, log s' = log s ++ evs /\ Forall is_load evs.
Proof.
  intros V Fuel.
  pose proof (memmem_total size_bits fuel _ _ _ _ _ V Fuel) as T.
  destruct V as (HH & HN & RH & RN).
  assert (Fr : framed s (memmem size_bits fuel haystack (len H) needle (len N) s)).
  { apply memmem_framed; trivial. unfold candidates, len in *. lia. }
  rewrite T in Fr. destruct Fr as (Hh & Hl). cbn [heap] in Hh.
  eexists _, _. split; [exact T|]. cbn [heap log]. repeat split; assumption.
Qed.

(** C8. The call terminates on every input: for lengths that are
    [size_t] values, a budget of [haystack_len - needle_len + 1] runs of
    the loop body is never used up, whatever the memory holds; on a
    well-formed call it returns a pointer, having run the loop body
    [iters] times with [iters <= haystack_len - needle_len + 1]. *)
Theorem memmem_terminates (size_bits : positive) (fuel : nat)
    (haystack : ptr) (haystack_len : Z) (needle : ptr) (needle_len : Z)
    (s : state) :
  is_size_t size_bits haystack_len ->
  is_size_t size_bits needle_len ->
  (Z.to_nat (haystack_len - needle_len + 1) <= fuel)%nat ->
  memmem size_bits fuel haystack haystack_len needle needle_len s <> OutOfFuel
  /\
  forall H N : list byte,
    haystack_len = len H -> needle_len = len N ->
    holds (heap s) haystack H -> holds (heap s) needle N ->
    exists (r : ptr) (iters : nat),
      (iters <= candidates H N)%nat /\
      memmem size_bits fuel haystack haystack_len needle needle_len s
      = Done r (mkState (heap s)
                  (log s ++ scan_log haystack needle (length N) 0 iters)).
Proof.
  intros RH RN Fuel. split.
  - pose proof (memmem_framed size_bits fuel haystack haystack_len needle
                  needle_len s RH RN Fuel) as Fr.
    intros E. rewrite E in Fr. exact Fr.
  - intros H N -> -> HH HN.
    assert (V : valid_call size_bits s haystack H needle N) by (unfold valid_call; tauto).
    assert (F : (candidates H N <= fuel)%nat) by (unfold candidates, len in *; lia).
    rewrite (memmem_total size_bits fuel _ _ _ _ _ V F).
    unfold memmem_accesses.
    destruct (decide (length N = 0%nat)); [exists (memmem_value haystack H N), 0%nat; split; [lia | reflexivity]|].
    destruct (decide (length H < length N)%nat); [exists (memmem_value haystack H N), 0%nat; split; [lia | reflexivity]|].
    eexists _, _. split; [apply scanned_bound | reflexivity].
Qed.

(** C9. On a well-formed call every access is in bounds.  Past the two
    guards the [size_t] subtraction [haystack_len - needle_len] is exact;
    the call returns normally (no access faults) and each access is a load
    of haystack byte [i + j] or of needle byte [j], for an offset
    [0 <= i <= haystack_len - needle_len] and [0 <= j < needle_len], hence
    at an index below [haystack_len], respectively [needle_len]. *)
Theorem memmem_accesses_in_bounds (size_bits : positive) (fuel : nat)
    (haystack needle : ptr) (H N : list byte) (s : state) :
  valid_call size_bits s haystack H needle N ->
  (candidates H N <= fuel)%nat ->
  (len N <> 0 -> ~ len H < len N ->
   size_sub size_bits (len H) (len N) = len H - len N) /\
  exists (r : ptr) (evs : list event),
    memmem size_bits fuel haystack (len H) needle (len N) s
    = Done r (mkState (heap s) (log s ++ evs)) /\
    forall e : event, e ∈ evs ->
      exists i j : Z,
        0 <= i <= len H - len N /\ 0 <= j < len N /\ i + j < len H /\
        (e = Load (haystack + i + j) \/ e = Load (needle + j)).
Proof.
  intros V Fuel. split.
  - destruct V as (_ & _ & RH & RN). intros NZ Fits.
    apply size_sub_exact; [exact RH | unfold len in *; lia].
  - eexists _, _. split; [apply memmem_total; eassumption|].
    unfold memmem_accesses.
    destruct (decide (length N = 0%nat)) as [_|NZ]; [intros e E; inversion E|].
    destruct (decide (length H < length N)%nat) as [_|Fits]; [intros e E; inversion E|].
    intros e E. apply scan_log_loads in E as (p & j & Rp & Rj & D).
    pose proof (scanned_bound H N (candidates H N)) as B.
    exists (Z.of_nat p), j. unfold candidates, len in *.
    repeat split; try lia. exact D.
Qed.

(** C10. On the null haystack ([NULL] with length 0) an empty needle
    makes the call return the haystack pointer, which is [NULL]: the very
    outcome, state included, that a non-empty needle, which cannot match,
    gives on the same haystack. *)
Theorem memmem_null_haystack_empty_needle (size_bits : positive) (fuel : nat)
    (needle needle' : ptr) (needle_len' : Z) (s : state) :
  0 < needle_len' ->
  memmem size_bits fuel NULL 0 needle 0 s = Done NULL s /\
  memmem size_bits fuel NULL 0 needle' needle_len' s
  = memmem size_bits fuel NULL 0 needle 0 s.
Proof.
  intros P. split; [reflexivity|].
  rewrite needle_too_long_returns_null by lia. reflexivity.
Qed.

(** ** The properties at concrete inputs *)

(** C1 at "world" in "hello world": the pointer to offset 6 comes back after the
    comparisons at offsets 0 to 6. *)
Lemma hello_world_leftmost :
  memmem 64 7 1000 (len hello_world) 2000 (len world)
    (laid_out 1000 hello_world 2000 world)
  = Done 1006
      (mkState (heap (laid_out 1000 hello_world 2000 world))
         (log (laid_out 1000 hello_world 2000 world)
          ++ scan_log 1000 2000 (length world) 0 7)).
Proof.
  refine (proj2 (proj1 (memmem_returns_leftmost 64 7 1000 2000 hello_world world
                          (laid_out 1000 hello_world 2000 world) _ _ _)
                   6%nat _ _)).
  - by_evaluation.
  - vm_compute. lia.
  - vm_compute. lia.
  - vm_compute. reflexivity.
  - intros j Rj.
    do 6 (destruct j as [|j]; [vm_compute; intro E; discriminate E|]). lia.
Defined.

(** C3 at "a" in the empty haystack. *)
Lemma empty_haystack_not_found :
  memmem 64 0 1000 0 2000 1 (laid_out 1000 [] 2000 [x61])
  = Done NULL (laid_out 1000 [] 2000 [x61]).
Proof. apply (memmem_needle_too_long 64 0 1000 0 2000 1). lia. Defined.

(** C4 as first stated, that [NULL] comes back only for a non-empty needle, fails on
    the null haystack: the call is well-formed, the needle is empty, and
    the result is [NULL]. *)
Lemma null_haystack_null_result :
  valid_call 64 (mkState ∅ []) NULL [] NULL [] /\
  memmem 64 1 NULL (len []) NULL (len []) (mkState ∅ [])
  = Done NULL (mkState ∅ []) /\
  ~ (@nil byte <> [] /\
     forall i : nat,
       (i + length (@nil byte) <= length (@nil byte))%nat ->
       ~ occurs_at [] [] i).
Proof.
  split; [by_evaluation|]. split; [reflexivity|].
  intros [NE _]. apply NE. reflexivity.
Qed.

(** C4, as amended, at "xyz" in "abc", the haystack at address 1000. *)
Lemma abc_xyz_not_found :
  exists (r : ptr) (s' : state),
    memmem 64 1 1000 (len abc) 2000 (len xyz) (laid_out 1000 abc 2000 xyz)
    = Done r s' /\
    (r = NULL <->
     (xyz <> [] /\
      forall i : nat, (i + length xyz <= length abc)%nat -> ~ occurs_at abc xyz i)
     \/ (xyz = [] /\ 1000 = NULL)).
Proof.
  apply (memmem_null_iff_absent 64 1 1000 2000 abc xyz).
  - by_evaluation.
  - intros k Rk. unfold NULL. lia.
  - vm_compute. lia.
Defined.

(** C5 at "aa" in "aaaa". *)
Lemma aaaa_match_sound :
  exists (r : ptr) (s' : state),
    memmem 64 3 1000 (len aaaa) 2000 (len aa) (laid_out 1000 aaaa 2000 aa)
    = Done r s' /\
    (r <> NULL ->
     exists i : nat,
       r = 1000 + Z.of_nat i /\
       (i + length aa <= length aaaa)%nat /\
       occurs_at aaaa aa i /\
       holds (heap s') r aa).
Proof.
  apply (memmem_match_sound 64 3 1000 2000 aaaa aa).
  - by_evaluation.
  - vm_compute. lia.
Defined.

(** C6 at two memories that agree on "aaaa" and "aa" and differ elsewhere, two
    earlier logs, two budgets. *)
Lemma aaaa_same_result :
  exists (r : ptr) (evs : list event),
    memmem 64 3 1000 (len aaaa) 2000 (len aa) (laid_out 1000 aaaa 2000 aa)
    = Done r (mkState (heap (laid_out 1000 aaaa 2000 aa))
                (log (laid_out 1000 aaaa 2000 aa) ++ evs)) /\
    memmem 64 10 1000 (len aaaa) 2000 (len aa) cluttered
    = Done r (mkState (heap cluttered) (log cluttered ++ evs)).
Proof.
  apply (memmem_deterministic 64 3 10 1000 2000 aaaa aa
           (laid_out 1000 aaaa 2000 aa) cluttered).
  - by_evaluation.
  - by_evaluation.
  - vm_compute. lia.
  - vm_compute. lia.
Defined.

(** C7 at "world" in "hello world": both buffers are as they were. *)
Lemma hello_world_unchanged :
  exists (r : ptr) (s' : state),
    memmem 64 7 1000 (len hello_world) 2000 (len world)
      (laid_out 1000 hello_world 2000 world)
    = Done r s' /\
    heap s' = heap (laid_out 1000 hello_world 2000 world) /\
    holds (heap s') 1000 hello_world /\ holds (heap s') 2000 world /\
    exists evs : list event,
      log s' = log (laid_out 1000 hello_world 2000 world) ++ evs /\
      Forall is_load evs.
Proof.
  apply (memmem_no_mutation 64 7 1000 2000 hello_world world).
  - by_evaluation.
  - vm_compute. lia.
Defined.

(** C8 at "world" in "hello world": with a budget of 7 the scan is not
    cut off and comes back after at most 7 runs of the loop body. *)
Lemma hello_world_terminates :
  memmem 64 7 1000 (len hello_world) 2000 (len world)
    (laid_out 1000 hello_world 2000 world) <> OutOfFuel /\
  exists (r : ptr) (iters : nat),
    (iters <= candidates hello_world world)%nat /\
    memmem 64 7 1000 (len hello_world) 2000 (len world)
      (laid_out 1000 hello_world 2000 world)
    = Done r (mkState (heap (laid_out 1000 hello_world 2000 world))
                (log (laid_out 1000 hello_world 2000 world)
                 ++ scan_log 1000 2000 (length world) 0 iters)).
Proof.
  assert (RH : is_size_t 64 (len hello_world)) by by_evaluation.
  assert (RN : is_size_t 64 (len world)) by by_evaluation.
  assert (F : (Z.to_nat (len hello_world - len world + 1) <= 7)%nat)
    by (vm_compute; lia).
  assert (HH : holds (heap (laid_out 1000 hello_world 2000 world)) 1000 hello_world)
    by (vm_compute; repeat split).
  assert (HN : holds (heap (laid_out 1000 hello_world 2000 world)) 2000 world)
    by (vm_compute; repeat split).
  exact (let T := memmem_terminates 64 7 1000 (len hello_world) 2000 (len world)
                    (laid_out 1000 hello_world 2000 world) RH RN F in
         conj (proj1 T) (proj2 T hello_world world eq_refl eq_refl HH HN)).
Defined.

(** C9 at "xyz" in "abc": every comparison stays inside the two buffers. *)
Lemma abc_xyz_in_bounds :
  (len xyz <> 0 -> ~ len abc < len xyz ->
   size_sub 64 (len abc) (len xyz) = len abc - len xyz) /\
  exists (r : ptr) (evs : list event),
    memmem 64 1 1000 (len abc) 2000 (len xyz) (laid_out 1000 abc 2000 xyz)
    = Done r (mkState (heap (laid_out 1000 abc 2000 xyz))
                (log (laid_out 1000 abc 2000 xyz) ++ evs)) /\
    forall e : event, e ∈ evs ->
      exists i j : Z,
        0 <= i <= len abc - len xyz /\ 0 <= j < len xyz /\ i + j < len abc /\
        (e = Load (1000 + i + j) \/ e = Load (2000 + j)).
Proof.
  apply (memmem_accesses_in_bounds 64 1 1000 2000 abc xyz).
  - by_evaluation.
  - vm_compute. lia.
Defined.

(** C10 at the null haystack, an empty needle and the one-byte needle "a". *)
Lemma null_haystack_same_outcome :
  memmem 64 0 NULL 0 2000 0 (laid_out 1000 [] 2000 [x61])
  = Done NULL (laid_out 1000 [] 2000 [x61]) /\
  memmem 64 0 NULL 0 2000 1 (laid_out 1000 [] 2000 [x61])
  = memmem 64 0 NULL 0 2000 0 (laid_out 1000 [] 2000 [x61]).
Proof.
  apply (memmem_null_haystack_empty_needle 64 0 2000 2000 1). lia.
Defined.

(** ** Further properties of [memmem] *)

(** *** Footprint on an arbitrary memory *)

Lemma confined_ret {A} (P : ptr -> Prop) (a : A) (s : state) :
  confined P s (ret a s).
Proof. split; [reflexivity|]. exists []. now rewrite app_nil_r. Qed.

Lemma confined_bind {A B} (P : ptr -> Prop) (c : M A) (k : A -> M B)
    (s : state) :
  confined P s (c s) ->
  (forall a s', c s = Done a s' -> confined P s' (k a s')) ->
  confined P s (bind c k s).
Proof.
  unfold bind. intros Fc Fk. destruct (c s) as [a s'| a s'|] eqn:E; trivial.
  specialize (Fk a s' eq_refl). destruct Fc as (Hh & evs & Hl & Hevs).
  assert (Join : forall s'',
    (heap s'' = heap s' /\
     exists evs' : list event, log s'' = log s' ++ evs' /\ Forall (reads_in P) evs') ->
    heap s'' = heap s /\
    exists evs' : list event, log s'' = log s ++ evs' /\ Forall (reads_in P) evs').
  { intros s'' (Hh' & evs' & Hl' & Hevs'). split; [congruence|].
    exists (evs ++ evs'). split; [rewrite Hl', Hl; now rewrite app_assoc|].
    now apply Forall_app. }
  destruct (k a s') as [b s''| b s''|]; cbn [confined] in *.
  - now apply Join.
  - destruct Fk as (Fr & Pb & Un). split; [now apply Join|].
    split; [exact Pb | now rewrite <- Hh].
  - exact Fk.
Qed.

Lemma load_confined (P : ptr -> Prop) (a : ptr) (s : state) :
  P a -> confined P s (load a s).
Proof.
  intros Pa. unfold load. destruct (heap s !! a) eqn:E; cbn [confined].
  - split; [reflexivity|]. exists [Load a]. split; [reflexivity|].
    constructor; [exact Pa | constructor].
  - split; [|split; [exact Pa | exact E]].
    split; [reflexivity|]. exists []. now rewrite app_nil_r.
Qed.

Lemma memcmp_bytes_confined (P : ptr -> Prop) (k : nat) (s1 s2 : ptr)
    (s : state) :
  (forall j : Z, 0 <= j < Z.of_nat k -> P (s1 + j) /\ P (s2 + j)) ->
  confined P s (memcmp_bytes k s1 s2 s).
Proof.
  revert s1 s2 s. induction k as [|k IH]; intros s1 s2 s In; cbn [memcmp_bytes].
  - apply confined_ret.
  - assert (P s1 /\ P s2) as [P1 P2].
    { specialize (In 0). rewrite !Z.add_0_r in In. apply In. lia. }
    apply confined_bind; [now apply load_confined|]. intros a s' _.
    apply confined_bind; [now apply load_confined|]. intros b s'' _.
    apply confined_bind; [|intros r s''' _; apply confined_ret].
    apply IH. intros j Rj. specialize (In (j + 1)).
    replace (s1 + (j + 1)) with (s1 + 1 + j) in In by lia.
    replace (s2 + (j + 1)) with (s2 + 1 + j) in In by lia.
    apply In. lia.
Qed.

Lemma memmem_loop_confined (size_bits : positive) (h : ptr) (hl : Z)
    (n : ptr) (nl : Z) (d : nat) (i : Z) (fuel : nat) (s : state) :
  is_size_t size_bits hl -> 0 < nl <= hl -> 0 <= i ->
  i + Z.of_nat d = hl - nl + 1 -> (d <= fuel)%nat ->
  confined (claimed h hl n nl) s (memmem_loop size_bits fuel h hl n nl i s).
Proof.
  intros Rh Rn. revert i fuel s.
  induction d as [|d IH]; intros i fuel s Ri Fit Fuel; rewrite memmem_loop_eq;
    rewrite size_sub_exact by (trivial; lia).
  - destruct (Z.leb_spec i (hl - nl)); [lia|]. apply confined_ret.
  - destruct (Z.leb_spec i (hl - nl)); [|lia].
    destruct fuel as [|fuel]; [lia|].
    apply confined_bind.
    + apply memcmp_bytes_confined. intros j Rj. unfold claimed. lia.
    + intros c s' _. destruct (c =? 0); [apply confined_ret|].
      rewrite (size_incr_exact _ _ hl) by (trivial; lia).
      apply IH; lia.
Qed.

(** X1. Whatever the memory holds, and whether or not the two buffers
    really are there, a call with [size_t] lengths ends, normally or at a
    faulting read, without having written and having read only addresses
    inside the two ranges the caller named; a fault, if any, is at an
    unmapped address inside these ranges. *)
Theorem memmem_confined (size_bits : positive) (fuel : nat)
    (haystack : ptr) (haystack_len : Z) (needle : ptr) (needle_len : Z)
    (s : state) :
  is_size_t size_bits haystack_len -> is_size_t size_bits needle_len ->
  (Z.to_nat (haystack_len - needle_len + 1) <= fuel)%nat ->
  confined (claimed haystack haystack_len needle needle_len) s
    (memmem size_bits fuel haystack haystack_len needle needle_len s).
Proof.
  intros Rh Rn Fuel. unfold memmem.
  destruct (Z.eqb_spec needle_len 0); [apply confined_ret|].
  destruct (Z.ltb_spec haystack_len needle_len); [apply confined_ret|].
  unfold is_size_t in *.
  apply (memmem_loop_confined _ _ _ _ _ (Z.to_nat (haystack_len - needle_len + 1)));
    trivial; lia.
Qed.

(** *** Searching a tail or a longer haystack *)

Lemma holds_drop (m : gmap Z byte) (p : ptr) (l : list byte) (j : nat) :
  holds m p l -> holds m (p + Z.of_nat j) (drop j l).
Proof.
  intros Hl. pose proof (holds_window m p l j (length l) Hl) as W.
  rewrite take_ge in W by (rewrite length_drop; lia). exact W.
Qed.

Lemma holds_app_l (m : gmap Z byte) (p : ptr) (l t : list byte) :
  holds m p (l ++ t) -> holds m p l.
Proof.
  rewrite !holds_lookup. intros Hl k b E. apply Hl.
  now apply lookup_app_l_Some.
Qed.

Lemma occurs_at_drop (H N : list byte) (j i : nat) :
  occurs_at (drop j H) N i <-> occurs_at H N (j + i).
Proof. unfold occurs_at. now rewrite drop_drop. Qed.

Lemma occurs_at_app (H T N : list byte) (i : nat) :
  (i + length N <= length H)%nat ->
  occurs_at (H ++ T) N i <-> occurs_at H N i.
Proof.
  intros Fit. unfold occurs_at.
  rewrite drop_app_le by lia. rewrite take_app_le by (rewrite length_drop; lia).
  reflexivity.
Qed.

Lemma valid_call_drop (size_bits : positive) (s : state) (haystack needle : ptr)
    (H N : list byte) (j : nat) :
  valid_call size_bits s haystack H needle N ->
  valid_call size_bits s (haystack + Z.of_nat j) (drop j H) needle N.
Proof.
  intros (HH & HN & RH & RN). unfold valid_call, is_size_t, len in *.
  rewrite length_drop. repeat split; try lia; trivial. now apply holds_drop.
Qed.

Lemma valid_call_app_l (size_bits : positive) (s : state) (haystack needle : ptr)
    (H T N : list byte) :
  valid_call size_bits s haystack (H ++ T) needle N ->
  valid_call size_bits s haystack H needle N.
Proof.
  intros (HH & HN & RH & RN). unfold valid_call, is_size_t, len in *.
  rewrite length_app in RH. repeat split; try lia; trivial.
  now apply holds_app_l in HH.
Qed.

(** X2. Searching again from offset [j] of the haystack (pointer
    [haystack + j], length [haystack_len - j]) returns the pointer to the
    lowest occurrence at or after [j]: the pointer just returned when [j]
    is its offset, the next occurrence when [j] is one more.  When the
    needle occurs nowhere from [j] on, the result is [NULL]. *)
Theorem memmem_from_offset (size_bits : positive) (fuel : nat)
    (haystack needle : ptr) (H N : list byte) (s : state) (j : nat) :
  valid_call size_bits s haystack H needle N ->
  (0 < length N)%nat ->
  (j <= length H)%nat ->
  (candidates H N <= fuel)%nat ->
  (forall k : nat,
     (j <= k)%nat ->
     occurs_at H N k ->
     (forall i : nat, (j <= i < k)%nat -> ~ occurs_at H N i) ->
     exists s' : state,
       memmem size_bits fuel (haystack + Z.of_nat j) (len H - Z.of_nat j)
         needle (len N) s
       = Done (haystack + Z.of_nat k) s')
  /\
  ((forall i : nat, (j <= i)%nat -> ~ occurs_at H N i) ->
   exists s' : state,
     memmem size_bits fuel (haystack + Z.of_nat j) (len H - Z.of_nat j)
       needle (len N) s
     = Done NULL s').
Proof.
  intros V PN Rj Fuel.
  assert (L : len H - Z.of_nat j = len (drop j H))
    by (unfold len; rewrite length_drop; lia).
  assert (F : (candidates (drop j H) N <= fuel)%nat)
    by (unfold candidates in *; rewrite length_drop; lia).
  pose proof (memmem_total size_bits fuel _ _ _ _ _
                (valid_call_drop size_bits s haystack needle H N j V) F) as T.
  rewrite <- L in T. unfold memmem_value in T.
  destruct (decide (length N = 0%nat)) as [E|_]; [lia|].
  split.
  - intros k Rk Hit Low. eexists.
    pose proof (occurs_at_fits H N k PN Hit) as Fit.
    destruct (decide (length (drop j H) < length N)%nat) as [Sh|_];
      [rewrite length_drop in Sh; lia|].
    rewrite (first_occ_leftmost (drop j H) N (k - j) PN) in T.
    + cbn [found_ptr] in T. rewrite T. f_equal. lia.
    + apply occurs_at_drop. now replace (j + (k - j))%nat with k by lia.
    + intros i Ri Y. apply occurs_at_drop in Y. apply (Low (j + i)%nat); [lia | exact Y].
  - intros Absent. eexists.
    destruct (decide (length (drop j H) < length N)%nat) as [Sh|_]; [exact T|].
    assert (E : first_occ (drop j H) N 0 (candidates (drop j H) N) = None).
    { apply first_occ_None. intros i _ Y. apply occurs_at_drop in Y.
      apply (Absent (j + i)%nat); [lia | exact Y]. }
    rewrite E in T. exact T.
Qed.

(** X3. A match does not move when the caller passes a longer haystack:
    if the needle occurs in the first [haystack_len] bytes, lowest at
    offset [k], the call returns [haystack + k] with that length and with
    every larger length that covers further bytes. *)
Theorem memmem_longer_haystack (size_bits : positive) (fuel : nat)
    (haystack needle : ptr) (H T N : list byte) (s : state) (k : nat) :
  valid_call size_bits s haystack (H ++ T) needle N ->
  (0 < length N)%nat ->
  occurs_at H N k ->
  (forall i : nat, (i < k)%nat -> ~ occurs_at H N i) ->
  (candidates (H ++ T) N <= fuel)%nat ->
  exists s1 s2 : state,
    memmem size_bits fuel haystack (len H) needle (len N) s
    = Done (haystack + Z.of_nat k) s1 /\
    memmem size_bits fuel haystack (len (H ++ T)) needle (len N) s
    = Done (haystack + Z.of_nat k) s2.
Proof.
  intros V PN Hit Low Fuel.
  pose proof (occurs_at_fits H N k PN Hit) as Fit.
  assert (F : (candidates H N <= fuel)%nat)
    by (unfold candidates in *; rewrite length_app in Fuel; lia).
  pose proof (memmem_total size_bits fuel _ _ _ _ _
                (valid_call_app_l size_bits s haystack needle H T N V) F) as T1.
  pose proof (memmem_total size_bits fuel _ _ _ _ _ V Fuel) as T2.
  unfold memmem_value in T1, T2.
  destruct (decide (length N = 0%nat)) as [E|_]; [lia|].
  destruct (decide (length H < length N)%nat) as [Sh|_]; [lia|].
  destruct (decide (length (H ++ T) < length N)%nat) as [Sh|_];
    [rewrite length_app in Sh; lia|].
  rewrite (first_occ_leftmost H N k PN Hit Low) in T1.
  rewrite (first_occ_leftmost (H ++ T) N k PN) in T2.
  - eexists _, _. split; [exact T1 | exact T2].
  - apply occurs_at_app; [lia | exact Hit].
  - intros i Ri Y. apply occurs_at_app in Y; [|lia]. exact (Low i Ri Y).
Qed.

(** *** Cost, equal lengths, and where the buffers live *)

Lemma memcmp_log_length (k : nat) (s1 s2 : ptr) :
  length (memcmp_log k s1 s2) = (2 * k)%nat.
Proof.
  revert s1 s2. induction k as [|k IH]; intros s1 s2; simpl; [reflexivity|].
  rewrite IH. lia.
Qed.

Lemma scan_log_length (h n : ptr) (k i d : nat) :
  length (scan_log h n k i d) = (2 * k * d)%nat.
Proof.
  revert i. induction d as [|d IH]; intros i; simpl; [lia|].
  rewrite length_app, memcmp_log_length, IH. lia.
Qed.

(** X4. A well-formed call loads at most
    [2 * needle_len * (haystack_len - needle_len + 1)] bytes, the needle
    and one window of the haystack per offset tried, and none at all when
    the needle is empty or longer than the haystack. *)
Theorem memmem_load_bound (size_bits : positive) (fuel : nat)
    (haystack needle : ptr) (H N : list byte) (s : state) :
  valid_call size_bits s haystack H needle N ->
  (candidates H N <= fuel)%nat ->
  exists (r : ptr) (evs : list event),
    memmem size_bits fuel haystack (len H) needle (len N) s
    = Done r (mkState (heap s) (log s ++ evs)) /\
    (length evs <= 2 * length N * candidates H N)%nat /\
    (length N = 0%nat \/ (length H < length N)%nat -> evs = []).
Proof.
  intros V Fuel. eexists _, _. split; [apply memmem_total; eassumption|].
  unfold memmem_accesses.
  destruct (decide (length N = 0%nat)) as [E|E]; [simpl; split; [lia | trivial]|].
  destruct (decide (length H < length N)%nat) as [L|L]; [simpl; split; [lia | trivial]|].
  split; [|intros [?|?]; lia].
  rewrite scan_log_length.
  pose proof (scanned_bound H N (candidates H N)) as B.
  apply Nat.mul_le_mono_l. exact B.
Qed.

(** X5. When the two lengths are equal the call is an equality test: it
    returns the haystack pointer if the two buffers hold the same bytes
    and [NULL] if they differ, after the one comparison at offset 0. *)
Theorem memmem_equal_lengths (size_bits : positive) (fuel : nat)
    (haystack needle : ptr) (H N : list byte) (s : state) :
  valid_call size_bits s haystack H needle N ->
  length H = length N ->
  (1 <= fuel)%nat ->
  memmem size_bits fuel haystack (len H) needle (len N) s
  = Done (if decide (H = N) then haystack else NULL)
      (mkState (heap s) (log s ++ memcmp_log (length N) haystack needle)).
Proof.
  intros V EL Fuel.
  assert (F : (candidates H N <= fuel)%nat) by (unfold candidates; lia).
  rewrite (memmem_total size_bits fuel _ _ _ _ _ V F).
  unfold memmem_value, memmem_accesses.
  destruct (decide (length N = 0%nat)) as [E|E].
  - destruct N; [|discriminate]. destruct H; [|discriminate].
    rewrite decide_True by reflexivity. reflexivity.
  - destruct (decide (length H < length N)%nat) as [L|_]; [lia|].
    replace (candidates H N) with 1%nat by (unfold candidates; lia).
    assert (Whole : occurs_at H N 0 <-> H = N).
    { unfold occurs_at. change (drop 0 H) with H. now rewrite take_ge by lia. }
    cbn [first_occ].
    destruct (decide (occurs_at H N 0)) as [Y|Y];
      destruct (decide (H = N)) as [Q|Q]; try tauto;
      cbn [found_ptr scanned scan_log Nat.sub];
      rewrite ?Nat2Z.inj_0, ?Z.add_0_r, ?app_nil_r; reflexivity.
Qed.

(** X6. The offset of the result depends on the bytes alone, not on
    where the buffers live: for the same haystack and needle bytes placed
    at other addresses, in another memory, the call returns [NULL] in both
    cases or the pointer at the same offset from its own haystack. *)
Theorem memmem_relocation (size_bits : positive) (fuel1 fuel2 : nat)
    (haystack1 needle1 haystack2 needle2 : ptr) (H N : list byte)
    (s1 s2 : state) :
  valid_call size_bits s1 haystack1 H needle1 N ->
  valid_call size_bits s2 haystack2 H needle2 N ->
  (candidates H N <= fuel1)%nat ->
  (candidates H N <= fuel2)%nat ->
  exists (o : option nat) (s1' s2' : state),
    memmem size_bits fuel1 haystack1 (len H) needle1 (len N) s1
    = Done (found_ptr haystack1 o) s1' /\
    memmem size_bits fuel2 haystack2 (len H) needle2 (len N) s2
    = Done (found_ptr haystack2 o) s2'.
Proof.
  intros V1 V2 F1 F2.
  rewrite (memmem_total size_bits fuel1 _ _ _ _ _ V1 F1).
  rewrite (memmem_total size_bits fuel2 _ _ _ _ _ V2 F2).
  unfold memmem_value.
  destruct (decide (length N = 0%nat)) as [E|E].
  - exists (Some 0%nat). eexists _, _. cbn [found_ptr].
    rewrite Nat2Z.inj_0, !Z.add_0_r. split; reflexivity.
  - destruct (decide (length H < length N)%nat) as [L|L].
    + exists None. eexists _, _. split; reflexivity.
    + exists (first_occ H N 0 (candidates H N)). eexists _, _.
      split; reflexivity.
Qed.

(** X7. Completeness on any occurrence: when a non-empty needle occurs
    in the haystack at some offset [j], the leftmost or not, the call
    returns the pointer to an occurrence at an offset [k <= j]; it does
    not return [NULL] unless that pointer is [haystack + k = NULL]. *)
Theorem memmem_finds_any_occurrence (size_bits : positive) (fuel : nat)
    (haystack needle : ptr) (H N : list byte) (s : state) (j : nat) :
  valid_call size_bits s haystack H needle N ->
  (0 < length N)%nat ->
  occurs_at H N j ->
  (candidates H N <= fuel)%nat ->
  exists (k : nat) (s' : state),
    (k <= j)%nat /\ occurs_at H N k /\
    memmem size_bits fuel haystack (len H) needle (len N) s
    = Done (haystack + Z.of_nat k) s'.
Proof.
  intros V PN Hit Fuel.
  pose proof (occurs_at_fits H N j PN Hit) as Fit.
  rewrite (memmem_total size_bits fuel _ _ _ _ _ V Fuel). unfold memmem_value.
  destruct (decide (length N = 0%nat)) as [E|_]; [lia|].
  destruct (decide (length H < length N)%nat) as [Sh|_]; [lia|].
  destruct (first_occ H N 0 (candidates H N)) as [k|] eqn:F.
  - apply first_occ_Some in F as (Rk & Hk & Low). exists k. eexists.
    split; [|split; [exact Hk | reflexivity]].
    destruct (le_lt_dec k j) as [Le|Gt]; [exact Le|].
    exfalso. apply (Low j); [lia | exact Hit].
  - exfalso. apply (proj1 (first_occ_None H N _ 0) F j); [|exact Hit].
    unfold candidates. lia.
Qed.

(** ** The further properties at concrete inputs *)

(** X1 at "abc" and "xyz" with a haystack length of 5, two more than the
    memory holds. *)
Lemma overlong_length_confined :
  confined (claimed 1000 5 2000 3) (laid_out 1000 abc 2000 xyz)
    (memmem 64 3 1000 5 2000 3 (laid_out 1000 abc 2000 xyz)).
Proof.
  apply (memmem_confined 64 3 1000 5 2000 3 (laid_out 1000 abc 2000 xyz)).
  - by_evaluation.
  - by_evaluation.
  - vm_compute. lia.
Defined.

(** X2 at "aa" in "aaaa", searched again from offset 1. *)
Lemma aaaa_from_offset_1 :
  exists s' : state,
    memmem 64 3 (1000 + Z.of_nat 1) (len aaaa - Z.of_nat 1) 2000 (len aa)
      (laid_out 1000 aaaa 2000 aa)
    = Done (1000 + Z.of_nat 1) s'.
Proof.
  refine (proj1 (memmem_from_offset 64 3 1000 2000 aaaa aa
                   (laid_out 1000 aaaa 2000 aa) 1 _ _ _ _) 1%nat _ _ _).
  - by_evaluation.
  - vm_compute. lia.
  - vm_compute. lia.
  - vm_compute. lia.
  - lia.
  - vm_compute. reflexivity.
  - intros i Ri. lia.
Defined.

(** X3 at "aa" in "aa" and in "aa" followed by "aa". *)
Lemma aa_then_aaaa_same_match :
  exists s1 s2 : state,
    memmem 64 3 1000 (len aa) 2000 (len aa) (laid_out 1000 (aa ++ aa) 2000 aa)
    = Done (1000 + Z.of_nat 0) s1 /\
    memmem 64 3 1000 (len (aa ++ aa)) 2000 (len aa)
      (laid_out 1000 (aa ++ aa) 2000 aa)
    = Done (1000 + Z.of_nat 0) s2.
Proof.
  apply (memmem_longer_haystack 64 3 1000 2000 aa aa aa
           (laid_out 1000 (aa ++ aa) 2000 aa) 0).
  - by_evaluation.
  - vm_compute. lia.
  - vm_compute. reflexivity.
  - intros i Ri. lia.
  - vm_compute. lia.
Defined.

(** X4 at "world" in "hello world". *)
Lemma hello_world_load_bound :
  exists (r : ptr) (evs : list event),
    memmem 64 7 1000 (len hello_world) 2000 (len world)
      (laid_out 1000 hello_world 2000 world)
    = Done r (mkState (heap (laid_out 1000 hello_world 2000 world))
                (log (laid_out 1000 hello_world 2000 world) ++ evs)) /\
    (length evs <= 2 * length world * candidates hello_world world)%nat /\
    (length world = 0%nat \/ (length hello_world < length world)%nat ->
     evs = []).
Proof.
  apply (memmem_load_bound 64 7 1000 2000 hello_world world).
  - by_evaluation.
  - vm_compute. lia.
Defined.

(** X5 at "aa" against "aa". *)
Lemma aa_equals_aa :
  memmem 64 1 1000 (len aa) 2000 (len aa) (laid_out 1000 aa 2000 aa)
  = Done (if decide (aa = aa) then 1000 else NULL)
      (mkState (heap (laid_out 1000 aa 2000 aa))
         (log (laid_out 1000 aa 2000 aa) ++ memcmp_log (length aa) 1000 2000)).
Proof.
  apply (memmem_equal_lengths 64 1 1000 2000 aa aa (laid_out 1000 aa 2000 aa)).
  - by_evaluation.
  - reflexivity.
  - lia.
Defined.

(** X6 at "aa" in "aaaa", once at addresses 1000 and 2000 and once at 500
    and 300. *)
Lemma aaaa_relocated :
  exists (o : option nat) (s1' s2' : state),
    memmem 64 3 1000 (len aaaa) 2000 (len aa) (laid_out 1000 aaaa 2000 aa)
    = Done (found_ptr 1000 o) s1' /\
    memmem 64 3 500 (len aaaa) 300 (len aa) (laid_out 500 aaaa 300 aa)
    = Done (found_ptr 500 o) s2'.
Proof.
  apply (memmem_relocation 64 3 3 1000 2000 500 300 aaaa aa).
  - by_evaluation.
  - by_evaluation.
  - vm_compute. lia.
  - vm_compute. lia.
Defined.

(** X7 at "aa" in "aaaa", knowing the occurrence at offset 2. *)
Lemma aaaa_found_before_2 :
  exists (k : nat) (s' : state),
    (k <= 2)%nat /\ occurs_at aaaa aa k /\
    memmem 64 3 1000 (len aaaa) 2000 (len aa) (laid_out 1000 aaaa 2000 aa)
    = Done (1000 + Z.of_nat k) s'.
Proof.
  apply (memmem_finds_any_occurrence 64 3 1000 2000 aaaa aa
           (laid_out 1000 aaaa 2000 aa) 2).
  - by_evaluation.
  - vm_compute. lia.
  - vm_compute. reflexivity.
  - vm_compute. lia.
Defined.
